(** * Elo rating simulation (mr.py): model and properties

    Python objects live in a heap indexed by references, so that two names
    for one [EloPlayer] share its fields; the random module is a tape of raw
    draws read by a cursor.

    The code is modelled twice.  The first model reads floats as real
    numbers ([10 ** x] is [Rpower 10 x], nothing rounds or overflows): it
    carries the properties that do not hinge on rounding.  Module [Double]
    models the same methods over IEEE binary64, with the OverflowError of
    [10 ** x]: it carries the properties that do. *)

From Stdlib Require Import Reals Lra Lia List NArith ZArith Bool.
From Stdlib Require Import Sorted Permutation.
From Stdlib Require Import PrimFloat SpecFloat FloatOps FloatAxioms.
Import ListNotations.

Open Scope R_scope.

(** ** Players *)

Record EloPlayer := mkEloPlayer {
  rating : R;
  rating_history : list R;
  matches_played : Z
}.

(** [EloPlayer.expected_score], in exact arithmetic; with rounding and the
    OverflowError of [10 ** x] it is [Double.expected_score]. *)
Definition expected_score (self : EloPlayer) (opponent_rating : R) : R :=
  1 / (1 + Rpower 10 ((opponent_rating - rating self) / 400)).

(** ** The world: object heap and random source *)

Definition ref := nat.

Record World := mkWorld {
  heap : ref -> EloPlayer;
  next_ref : ref;
  tape : nat -> N;
  cursor : nat
}.

Inductive exception := IndexError.

Inductive result (A : Type) :=
| Ok (a : A)
| Raise (e : exception).
Arguments Ok {A} a.
Arguments Raise {A} e.

Definition M (A : Type) := World -> result (A * World).

Definition ret {A} (a : A) : M A := fun w => Ok (a, w).

Definition bind {A B} (m : M A) (k : A -> M B) : M B :=
  fun w => match m w with
           | Ok (a, w') => k a w'
           | Raise e => Raise e
           end.

Definition raise {A} (e : exception) : M A := fun _ => Raise e.

Notation "x <- c1 ;; c2" := (bind c1 (fun x => c2))
  (at level 61, c1 at next level, right associativity).
Notation "c1 ;;; c2" := (bind c1 (fun _ => c2))
  (at level 61, right associativity).

Definition upd (h : ref -> EloPlayer) (r : ref) (p : EloPlayer) : ref -> EloPlayer :=
  fun r' => if Nat.eqb r' r then p else h r'.

(** Reading an object's fields. *)
Definition deref (r : ref) : M EloPlayer := fun w => Ok (heap w r, w).

(** In-place mutation of the object behind [r]. *)
Definition mutate (r : ref) (f : EloPlayer -> EloPlayer) : M unit :=
  fun w => Ok (tt, mkWorld (upd (heap w) r (f (heap w r))) (next_ref w) (tape w) (cursor w)).

(** Object creation: a fresh reference. *)
Definition alloc (p : EloPlayer) : M ref :=
  fun w => Ok (next_ref w, mkWorld (upd (heap w) (next_ref w) p) (S (next_ref w)) (tape w) (cursor w)).

(** One raw draw from the random source. *)
Definition draw : M N :=
  fun w => Ok (tape w (cursor w), mkWorld (heap w) (next_ref w) (tape w) (S (cursor w))).

(** [random.random()]: a multiple of 2^-53 in [0,1). *)
Definition random_random : M R :=
  n <- draw ;;
  ret (IZR (Z.of_N (N.modulo n (2 ^ 53))) / IZR (2 ^ 53)).

(** [random.choice(seq)]: IndexError on an empty sequence, otherwise
    [seq[randbelow(len(seq))]]. *)
Definition random_choice (seq : list ref) : M ref :=
  match seq with
  | [] => raise IndexError
  | x :: _ =>
      n <- draw ;;
      ret (nth (N.to_nat (N.modulo n (N.of_nat (length seq)))) seq x)
  end.

(** ** EloPlayer methods *)

(** [EloPlayer.__init__] *)
Definition EloPlayer_init (initial_rating : R) : M ref :=
  alloc (mkEloPlayer initial_rating [initial_rating] 0).

Definition set_rating (v : R) (p : EloPlayer) : EloPlayer :=
  mkEloPlayer v (rating_history p) (matches_played p).

Definition append_history (p : EloPlayer) : EloPlayer :=
  mkEloPlayer (rating p) (rating_history p ++ [rating p]) (matches_played p).

Definition incr_matches (p : EloPlayer) : EloPlayer :=
  mkEloPlayer (rating p) (rating_history p) (matches_played p + 1).

(** [EloPlayer.update_rating], in exact arithmetic; over doubles it is
    [Double.update_rating]. *)
Definition update_rating (self : ref) (opponent_rating actual_score k_factor : R) : M R :=
  me <- deref self ;;
  let expected := expected_score me opponent_rating in
  let rating_change := k_factor * (actual_score - expected) in
  mutate self (fun p => set_rating (rating p + rating_change) p) ;;;
  mutate self append_history ;;;
  mutate self incr_matches ;;;
  ret rating_change.

Definition default_k_factor : R := 32.

(** ** Matchmaking *)

Record MatchmakingSystem := mkMatchmakingSystem {
  players : list ref;
  rating_range_percentage : R
}.

Definition default_rating_range_percentage : R := 2 / 10.

Definition Rleb (a b : R) : bool := if Rle_dec a b then true else false.
Definition Rltb (a b : R) : bool := if Rlt_dec a b then true else false.

Definition is_other (player p : ref) : bool := negb (Nat.eqb p player).

Definition in_range (h : ref -> EloPlayer) (min_rating max_rating : R) (p : ref) : bool :=
  Rleb min_rating (rating (h p)) && Rleb (rating (h p)) max_rating.

(** [MatchmakingSystem.find_match], with exact band ends; with the rounded
    products the code compares against it is [Double.find_match]. *)
Definition find_match (self : MatchmakingSystem) (player : ref) : M ref :=
  me <- deref player ;;
  let min_rating := rating me * (1 - rating_range_percentage self) in
  let max_rating := rating me * (1 + rating_range_percentage self) in
  fun w =>
    let potential_opponents :=
      filter (fun p => is_other player p && in_range (heap w) min_rating max_rating p)
             (players self) in
    let potential_opponents :=
      match potential_opponents with
      | [] => filter (is_other player) (players self)
      | _ => potential_opponents
      end in
    random_choice potential_opponents w.

(** ** Matches *)

(** [simulate_match] *)
Definition simulate_match (player1 player2 : ref) : M Z :=
  p1 <- deref player1 ;;
  p2 <- deref player2 ;;
  let expected_score1 := expected_score p1 (rating p2) in
  random_value <- random_random ;;
  if Rltb random_value expected_score1 then
    o2 <- deref player2 ;;
    update_rating player1 (rating o2) 1 default_k_factor ;;;
    o1 <- deref player1 ;;
    update_rating player2 (rating o1) 0 default_k_factor ;;;
    ret 1%Z
  else
    o2 <- deref player2 ;;
    update_rating player1 (rating o2) 0 default_k_factor ;;;
    o1 <- deref player1 ;;
    update_rating player2 (rating o1) 1 default_k_factor ;;;
    ret 2%Z.

(** ** The driver *)

Fixpoint create_players (n : nat) (initial_rating : R) : M (list ref) :=
  match n with
  | O => ret []
  | S n' =>
      p <- EloPlayer_init initial_rating ;;
      ps <- create_players n' initial_rating ;;
      ret (p :: ps)
  end.

(** One iteration of the match loop. *)
Definition play_round (ps : list ref) (matchmaker : MatchmakingSystem)
    (match_results : list Z) : M (list Z) :=
  p1 <- random_choice ps ;;
  p2 <- find_match matchmaker p1 ;;
  winner <- simulate_match p1 p2 ;;
  ret (match_results ++ [winner]).

Fixpoint run_matches (n : nat) (ps : list ref) (matchmaker : MatchmakingSystem)
    (match_results : list Z) : M (list Z) :=
  match n with
  | O => ret match_results
  | S n' =>
      match_results' <- play_round ps matchmaker match_results ;;
      run_matches n' ps matchmaker match_results'
  end.

(** [monte_carlo_elo_simulation]; [range(n)] is empty for a negative [n]. *)
Definition monte_carlo_elo_simulation (num_players num_matches : Z) (initial_rating : R)
    : M (list ref * list Z) :=
  ps <- create_players (Z.to_nat num_players) initial_rating ;;
  let matchmaker := mkMatchmakingSystem ps default_rating_range_percentage in
  match_results <- run_matches (Z.to_nat num_matches) ps matchmaker [] ;;
  ret (ps, match_results).

(** ** Specification-level vocabulary *)

(** RatingModel.expectedScore, as the specification words it. *)
Definition expectedScore (ratingA ratingB : R) : R :=
  1 / (1 + Rpower 10 ((ratingB - ratingA) / 400)).

(** The state of a player once a match with rating change [d] is recorded. *)
Definition played (p : EloPlayer) (d : R) : EloPlayer :=
  mkEloPlayer (rating p + d) (rating_history p ++ [rating p + d]) (matches_played p + 1).

(** The value [random.random()] returns in world [w]. *)
Definition unit_draw (w : World) : R :=
  IZR (Z.of_N (N.modulo (tape w (cursor w)) (2 ^ 53))) / IZR (2 ^ 53).

Definition player1_wins (w : World) (player1 player2 : ref) : bool :=
  Rltb (unit_draw w) (expected_score (heap w player1) (rating (heap w player2))).

Definition score_of (won : bool) : R := if won then 1 else 0.

Definition same_random (w w' : World) : Prop :=
  tape w' = tape w /\ cursor w' = cursor w.






(** [simulate_match] with the two updates of each branch applied in the
    other order (player2 first); not in the source, used to compare. *)
Definition simulate_match_reversed (player1 player2 : ref) : M Z :=
  p1 <- deref player1 ;;
  p2 <- deref player2 ;;
  let expected_score1 := expected_score p1 (rating p2) in
  random_value <- random_random ;;
  if Rltb random_value expected_score1 then
    o1 <- deref player1 ;;
    update_rating player2 (rating o1) 0 default_k_factor ;;;
    o2 <- deref player2 ;;
    update_rating player1 (rating o2) 1 default_k_factor ;;;
    ret 1%Z
  else
    o1 <- deref player1 ;;
    update_rating player2 (rating o1) 1 default_k_factor ;;;
    o2 <- deref player2 ;;
    update_rating player1 (rating o2) 0 default_k_factor ;;;
    ret 2%Z.

(** The members of the population a subject may be paired with, as the
    specification words them. *)
Definition eligible (h : ref -> EloPlayer) (ms : MatchmakingSystem) (subject q : ref) : Prop :=
  In q (players ms) /\ q <> subject /\
  rating (h subject) * (1 - rating_range_percentage ms) <= rating (h q)
    <= rating (h subject) * (1 + rating_range_percentage ms).

(** The two candidate lists [find_match] builds in heap [h]. *)
Definition band_opponents (h : ref -> EloPlayer) (ms : MatchmakingSystem)
    (subject : ref) : list ref :=
  filter (fun p => is_other subject p &&
                   in_range h (rating (h subject) * (1 - rating_range_percentage ms))
                              (rating (h subject) * (1 + rating_range_percentage ms)) p)
         (players ms).

Definition potential_opponents (h : ref -> EloPlayer) (ms : MatchmakingSystem)
    (subject : ref) : list ref :=
  match band_opponents h ms subject with
  | [] => filter (is_other subject) (players ms)
  | l => l
  end.

(** The world after one draw. *)
Definition advance (w : World) : World :=
  mkWorld (heap w) (next_ref w) (tape w) (S (cursor w)).

(** The index [random.choice] picks in a sequence of length [len]. *)
Definition choice_index (w : World) (len : nat) : nat :=
  N.to_nat (N.modulo (tape w (cursor w)) (N.of_nat len)).

(** Two fresh 1500-rated players at references 0 and 1; every draw is [n]. *)
Definition fresh_player : EloPlayer := mkEloPlayer 1500 [1500] 0.

Definition duel (n : N) : World :=
  mkWorld (fun _ => fresh_player) 2%nat (fun _ => n) 0%nat.





(** ** The summary printed after a run (module level) *)

(** [final_ratings = [player.rating for player in players]] *)
Definition final_ratings (h : ref -> EloPlayer) (ps : list ref) : list R :=
  map (fun p => rating (h p)) ps.

(** The builtins [max] and [min] on a list: the running extreme is
    replaced by a strictly larger (smaller) item; [None] stands for the
    ValueError an empty list raises. *)
Definition py_max (l : list R) : option R :=
  match l with
  | [] => None
  | x :: l' => Some (fold_left (fun m y => if Rltb m y then y else m) l' x)
  end.

Definition py_min (l : list R) : option R :=
  match l with
  | [] => None
  | x :: l' => Some (fold_left (fun m y => if Rltb y m then y else m) l' x)
  end.

(** [sorted(players, key=lambda x: x.rating, reverse=True)]: a stable sort,
    highest rating first, equally rated players in their original order. *)
Fixpoint insert_by_rating (h : ref -> EloPlayer) (p : ref) (l : list ref) : list ref :=
  match l with
  | [] => [p]
  | q :: l' =>
      if Rltb (rating (h p)) (rating (h q))
      then q :: insert_by_rating h p l'
      else p :: q :: l'
  end.

Definition sorted_players (h : ref -> EloPlayer) (ps : list ref) : list ref :=
  fold_right (insert_by_rating h) [] ps.

(** [sorted_players[:5]] and [sorted_players[-5:]] *)
Definition top_five (h : ref -> EloPlayer) (ps : list ref) : list ref :=
  firstn 5 (sorted_players h ps).

Definition bottom_five (h : ref -> EloPlayer) (ps : list ref) : list ref :=
  skipn (length (sorted_players h ps) - 5) (sorted_players h ps).

(** Ranked no lower: [a] stands before [b] in a ranking. *)
Definition outranks (h : ref -> EloPlayer) (a b : ref) : Prop :=
  rating (h b) <= rating (h a).

(** * The same code over IEEE binary64

    Where a property depends on rounding or on the OverflowError of
    [10 ** x], the code is modelled over primitive doubles: [+ - * /] and
    the comparisons are the IEEE operations Python uses, and C's [pow] is a
    parameter.  The ints of the source (0, 1, 32, 400, a rating given as
    an int) are their exact doubles.  An exception carries the world it
    leaves behind. *)

Module Double.
Local Open Scope float_scope.

Record EloPlayer := mkEloPlayer {
  rating : float;
  rating_history : list float;
  matches_played : Z
}.

Record World := mkWorld {
  heap : ref -> EloPlayer;
  next_ref : ref;
  tape : nat -> N;
  cursor : nat
}.

Inductive exception := IndexError | OverflowError | ZeroDivisionError.

Inductive result (A : Type) :=
| Ok (a : A) (w : World)
| Raise (e : exception) (w : World).
Arguments Ok {A} a w.
Arguments Raise {A} e w.

Definition M (A : Type) := World -> result A.

Definition ret {A} (a : A) : M A := fun w => Ok a w.

Definition bind {A B} (m : M A) (k : A -> M B) : M B :=
  fun w => match m w with
           | Ok a w' => k a w'
           | Raise e w' => Raise e w'
           end.

Definition raise {A} (e : exception) : M A := fun w => Raise e w.

(** A computation that may fail but touches nothing. *)
Definition lift {A} (v : exception + A) : M A :=
  fun w => match v with
           | inl e => Raise e w
           | inr a => Ok a w
           end.

Declare Scope double_scope.
Notation "x <- c1 ;; c2" := (bind c1 (fun x => c2))
  (at level 61, c1 at next level, right associativity) : double_scope.
Notation "c1 ;;; c2" := (bind c1 (fun _ => c2))
  (at level 61, right associativity) : double_scope.
Local Open Scope double_scope.

Definition upd (h : ref -> EloPlayer) (r : ref) (p : EloPlayer) : ref -> EloPlayer :=
  fun r' => if Nat.eqb r' r then p else h r'.

Definition deref (r : ref) : M EloPlayer := fun w => Ok (heap w r) w.

Definition mutate (r : ref) (f : EloPlayer -> EloPlayer) : M unit :=
  fun w => Ok tt (mkWorld (upd (heap w) r (f (heap w r))) (next_ref w) (tape w) (cursor w)).

Definition alloc (p : EloPlayer) : M ref :=
  fun w => Ok (next_ref w)
              (mkWorld (upd (heap w) (next_ref w) p) (S (next_ref w)) (tape w) (cursor w)).

Definition draw : M N :=
  fun w => Ok (tape w (cursor w)) (mkWorld (heap w) (next_ref w) (tape w) (S (cursor w))).

(** An integer below 2^53 as a double, exactly. *)
Fixpoint float_of_pos (p : positive) : float :=
  match p with
  | xH => 1
  | xO p' => 2 * float_of_pos p'
  | xI p' => 2 * float_of_pos p' + 1
  end.

Definition float_of_N (n : N) : float :=
  match n with
  | N0 => 0
  | Npos p => float_of_pos p
  end.

(** [random.random()]: a multiple of 2^-53 in [0,1). *)
Definition random_random : M float :=
  n <- draw ;;
  ret (float_of_N (N.modulo n (2 ^ 53)) / 0x1p53).

(** [random.choice(seq)] *)
Definition random_choice (seq : list ref) : M ref :=
  match seq with
  | [] => raise IndexError
  | x :: _ =>
      n <- draw ;;
      ret (nth (N.to_nat (N.modulo n (N.of_nat (length seq)))) seq x)
  end.

(** [EloPlayer.__init__] *)
Definition EloPlayer_init (initial_rating : float) : M ref :=
  alloc (mkEloPlayer initial_rating [initial_rating] 0).

Definition set_rating (v : float) (p : EloPlayer) : EloPlayer :=
  mkEloPlayer v (rating_history p) (matches_played p).

Definition append_history (p : EloPlayer) : EloPlayer :=
  mkEloPlayer (rating p) (rating_history p ++ [rating p]) (matches_played p).

Definition incr_matches (p : EloPlayer) : EloPlayer :=
  mkEloPlayer (rating p) (rating_history p) (matches_played p + 1).

Definition default_k_factor : float := 32.

(** The double nearest to 0.2. *)
Definition default_rating_range_percentage : float := 0x1.999999999999ap-3.

Record MatchmakingSystem := mkMatchmakingSystem {
  players : list ref;
  rating_range_percentage : float
}.

Definition is_other (player p : ref) : bool := negb (Nat.eqb p player).

Definition in_range (h : ref -> EloPlayer) (min_rating max_rating : float) (p : ref) : bool :=
  (min_rating <=? rating (h p)) && (rating (h p) <=? max_rating).

(** [MatchmakingSystem.find_match] *)
Definition find_match (self : MatchmakingSystem) (player : ref) : M ref :=
  me <- deref player ;;
  let min_rating := rating me * (1 - rating_range_percentage self) in
  let max_rating := rating me * (1 + rating_range_percentage self) in
  fun w =>
    let potential_opponents :=
      filter (fun p => is_other player p && in_range (heap w) min_rating max_rating p)
             (players self) in
    let potential_opponents :=
      match potential_opponents with
      | [] => filter (is_other player) (players self)
      | _ => potential_opponents
      end in
    random_choice potential_opponents w.

Section Libm.

(** C's [pow(10.0, x)], which Python calls for [10 ** x]. *)
Variable libm_pow10 : float -> float.

(** [10 ** x] for a float [x]: the special cases Python settles itself,
    then [pow]; an infinite result of [pow] is an OverflowError, an
    underflow to zero is not an error. *)
Definition pow10 (x : float) : exception + float :=
  if x =? 0 then inr 1
  else if is_nan x then inr x
  else if is_infinity x then inr (if 0 <? x then infinity else 0)
  else
    let r := libm_pow10 x in
    if is_infinity r then inl OverflowError else inr r.

(** [EloPlayer.expected_score] *)
Definition expected_score (self : EloPlayer) (opponent_rating : float)
    : exception + float :=
  match pow10 ((opponent_rating - rating self) / 400) with
  | inl e => inl e
  | inr p => if 1 + p =? 0 then inl ZeroDivisionError else inr (1 / (1 + p))
  end.

(** [EloPlayer.update_rating] *)
Definition update_rating (self : ref) (opponent_rating actual_score k_factor : float)
    : M float :=
  me <- deref self ;;
  expected <- lift (expected_score me opponent_rating) ;;
  let rating_change := k_factor * (actual_score - expected) in
  mutate self (fun p => set_rating (rating p + rating_change) p) ;;;
  mutate self append_history ;;;
  mutate self incr_matches ;;;
  ret rating_change.

(** [simulate_match] *)
Definition simulate_match (player1 player2 : ref) : M Z :=
  p1 <- deref player1 ;;
  p2 <- deref player2 ;;
  expected_score1 <- lift (expected_score p1 (rating p2)) ;;
  random_value <- random_random ;;
  if random_value <? expected_score1 then
    o2 <- deref player2 ;;
    update_rating player1 (rating o2) 1 default_k_factor ;;;
    o1 <- deref player1 ;;
    update_rating player2 (rating o1) 0 default_k_factor ;;;
    ret 1%Z
  else
    o2 <- deref player2 ;;
    update_rating player1 (rating o2) 0 default_k_factor ;;;
    o1 <- deref player1 ;;
    update_rating player2 (rating o1) 1 default_k_factor ;;;
    ret 2%Z.

End Libm.

(** The state of a player once a match with rating change [d] is recorded. *)
Definition played (p : EloPlayer) (d : float) : EloPlayer :=
  mkEloPlayer (rating p + d) (rating_history p ++ [rating p + d]) (matches_played p + 1).

(** The members in the band of a subject, with the band ends as the code
    computes them. *)
Definition eligible (h : ref -> EloPlayer) (ms : MatchmakingSystem) (subject q : ref) : Prop :=
  In q (players ms) /\ q <> subject /\
  (rating (h subject) * (1 - rating_range_percentage ms) <=? rating (h q)) = true /\
  (rating (h q) <=? rating (h subject) * (1 + rating_range_percentage ms)) = true.

(** The two candidate lists [find_match] builds in heap [h]. *)
Definition band_opponents (h : ref -> EloPlayer) (ms : MatchmakingSystem)
    (subject : ref) : list ref :=
  filter (fun p => is_other subject p &&
                   in_range h (rating (h subject) * (1 - rating_range_percentage ms))
                              (rating (h subject) * (1 + rating_range_percentage ms)) p)
         (players ms).

Definition potential_opponents (h : ref -> EloPlayer) (ms : MatchmakingSystem)
    (subject : ref) : list ref :=
  match band_opponents h ms subject with
  | [] => filter (is_other subject) (players ms)
  | l => l
  end.

Definition advance (w : World) : World :=
  mkWorld (heap w) (next_ref w) (tape w) (S (cursor w)).

Definition choice_index (w : World) (len : nat) : nat :=
  N.to_nat (N.modulo (tape w (cursor w)) (N.of_nat len)).

Definition redraw (w : World) (n : N) : World :=
  mkWorld (heap w) (next_ref w) (fun _ => n) (cursor w).

(** The value [random.random()] returns in world [w]. *)
Definition unit_draw (w : World) : float :=
  float_of_N (N.modulo (tape w (cursor w)) (2 ^ 53)) / 0x1p53.


(** A [pow(10.0, x)] known where the examples need it: overflow from 309
    up, underflow to zero from -324 down, and the values glibc returns at
    16/400, 11/400 and -11/400. *)
Definition sampled_pow10 (x : float) : float :=
  if 309 <=? x then infinity
  else if x <=? -324 then 0
  else if x =? 0x1.47ae147ae147bp-5 then 0x1.18b2cb8936492p+0
  else if x =? 0x1.c28f5c28f5c29p-6 then 0x1.10bc038ba0fd7p+0
  else if x =? -0x1.c28f5c28f5c29p-6 then 0x1.e095b06450b7fp-1
  else nan.

(** Example worlds: players by rating at references 0, 1, 2, ...; every
    draw is 0. *)
Definition fresh (r : float) : EloPlayer := mkEloPlayer r [r] 0.

Definition world_of (ratings : list float) : World :=
  mkWorld (fun i => fresh (nth i ratings 1500)) (length ratings) (fun _ => 0%N) 0%nat.

(** A subject rated 1401.0 (reference 0) among players rated 1681.2,
    1120.8 and 3000.0, with the default matchmaker. *)
Definition band_world : World :=
  world_of [1401; 0x1.a44cccccccccdp+10; 0x1.1833333333333p+10; 3000].

Definition band_matchmaker : MatchmakingSystem :=
  mkMatchmakingSystem [0; 1; 2; 3]%nat default_rating_range_percentage.

End Double.

(** ** Facts about the logistic curve *)

Lemma pow10_pos (x : R) : 0 < Rpower 10 x.
Proof. unfold Rpower. apply exp_pos. Qed.

Lemma pow10_lt (x y : R) : x < y -> Rpower 10 x < Rpower 10 y.
Proof. intros H. apply Rpower_lt; lra. Qed.

Lemma pow10_inj (x y : R) : Rpower 10 x = Rpower 10 y -> x = y.
Proof.
  intros H.
  destruct (Rtotal_order x y) as [Hlt | [Heq | Hgt]]; auto.
  - apply pow10_lt in Hlt. lra.
  - apply pow10_lt in Hgt. lra.
Qed.

Lemma pow10_0 : Rpower 10 0 = 1.
Proof. apply Rpower_O. lra. Qed.

Lemma expected_score_eq (p : EloPlayer) (o : R) :
  expected_score p o = expectedScore (rating p) o.
Proof. reflexivity. Qed.

Lemma expectedScore_bounds (a b : R) : 0 < expectedScore a b < 1.
Proof.
  unfold expectedScore.
  pose proof (pow10_pos ((b - a) / 400)) as Hp.
  split.
  - apply Rdiv_lt_0_compat; lra.
  - apply Rmult_lt_reg_r with (1 + Rpower 10 ((b - a) / 400)); [lra|].
    field_simplify; lra.
Qed.

Lemma expectedScore_inj_opponent (a b c : R) :
  expectedScore a b = expectedScore a c -> b = c.
Proof.
  unfold expectedScore. intros H.
  pose proof (pow10_pos ((b - a) / 400)) as Hb.
  pose proof (pow10_pos ((c - a) / 400)) as Hc.
  assert (Hpow : Rpower 10 ((b - a) / 400) = Rpower 10 ((c - a) / 400)).
  { assert (Hinv : 1 + Rpower 10 ((b - a) / 400) = 1 + Rpower 10 ((c - a) / 400)).
    { apply Rinv_eq_reg. lra. }
    lra. }
  apply pow10_inj in Hpow. lra.
Qed.

Lemma expectedScore_complement (a b : R) :
  expectedScore a b + expectedScore b a = 1.
Proof.
  unfold expectedScore.
  replace ((a - b) / 400) with (- ((b - a) / 400)) by lra.
  rewrite Rpower_Ropp.
  pose proof (pow10_pos ((b - a) / 400)) as Hp.
  field. lra.
Qed.

Lemma expectedScore_same (a : R) : expectedScore a a = 1 / 2.
Proof.
  unfold expectedScore.
  replace ((a - a) / 400) with 0 by lra.
  rewrite pow10_0. lra.
Qed.

(** ** Reasoning about computations *)

Lemma upd_same (h : ref -> EloPlayer) (r : ref) (p : EloPlayer) : upd h r p r = p.
Proof. unfold upd. now rewrite Nat.eqb_refl. Qed.

Lemma upd_other (h : ref -> EloPlayer) (r r' : ref) (p : EloPlayer) :
  r' <> r -> upd h r p r' = h r'.
Proof. intros H. unfold upd. apply Nat.eqb_neq in H. now rewrite H. Qed.










(** ** update_rating *)

Lemma update_rating_effect (self : ref) (o s k : R) (w : World) :
  let d := k * (s - expected_score (heap w self) o) in
  exists w',
    update_rating self o s k w = Ok (d, w') /\
    heap w' self = played (heap w self) d /\
    (forall r, r <> self -> heap w' r = heap w r) /\
    next_ref w' = next_ref w /\ same_random w w'.
Proof.
  intros d. unfold update_rating, bind, deref, mutate, ret. simpl.
  eexists. split; [reflexivity|]. simpl. repeat split.
  - rewrite !upd_same. reflexivity.
  - intros r Hr. now rewrite !upd_other by assumption.
Qed.




(** ** simulate_match *)

Lemma random_random_effect (w : World) :
  random_random w =
  Ok (unit_draw w, mkWorld (heap w) (next_ref w) (tape w) (S (cursor w))).
Proof. reflexivity. Qed.

Lemma unit_draw_range (w : World) : 0 <= unit_draw w < 1.
Proof.
  unfold unit_draw.
  set (n := tape w (cursor w)).
  assert (Hn : (0 <= Z.of_N (n mod 2 ^ 53) < 2 ^ 53)%Z).
  { pose proof (N.mod_upper_bound n (2 ^ 53)) as Hu.
    assert (Hnz : (2 ^ 53)%N <> 0%N) by (vm_compute; discriminate).
    specialize (Hu Hnz).
    split; [apply N2Z.is_nonneg|].
    change (2 ^ 53)%Z with (Z.of_N (2 ^ 53)). now apply N2Z.inj_lt. }
  destruct Hn as [H0 H1].
  apply IZR_le in H0. apply IZR_lt in H1.
  assert (Hp : 0 < IZR (2 ^ 53)) by (apply IZR_lt; reflexivity).
  split.
  - apply Rmult_le_reg_r with (IZR (2 ^ 53)); [exact Hp|].
    unfold Rdiv. rewrite Rmult_assoc, Rinv_l by lra. lra.
  - apply Rmult_lt_reg_r with (IZR (2 ^ 53)); [exact Hp|].
    unfold Rdiv. rewrite Rmult_assoc, Rinv_l by lra. lra.
Qed.

(** Two updates in sequence on distinct players [a] then [b]: the second
    reads [a]'s rating after the first has changed it. *)
Lemma update_pair_effect (a b : ref) (sa sb : R) (z : Z) (w : World) :
  a <> b ->
  let da := 32 * (sa - expected_score (heap w a) (rating (heap w b))) in
  let db := 32 * (sb - expected_score (heap w b) (rating (heap w a) + da)) in
  exists w',
    (ob <- deref b ;;
     update_rating a (rating ob) sa default_k_factor ;;;
     oa <- deref a ;;
     update_rating b (rating oa) sb default_k_factor ;;;
     ret z) w = Ok (z, w') /\
    heap w' a = played (heap w a) da /\
    heap w' b = played (heap w b) db /\
    (forall r, r <> a -> r <> b -> heap w' r = heap w r) /\
    next_ref w' = next_ref w /\ same_random w w'.
Proof.
  intros Hne da db.
  unfold bind at 1. unfold deref at 1.
  unfold bind at 1.
  destruct (update_rating_effect a (rating (heap w b)) sa default_k_factor w)
    as (w1 & -> & H1 & H1o & H1n & H1t & H1c).
  unfold bind at 1. unfold deref at 1.
  unfold bind at 1.
  destruct (update_rating_effect b (rating (heap w1 a)) sb default_k_factor w1)
    as (w2 & -> & H2 & H2o & H2n & H2t & H2c).
  exists w2. unfold ret. split; [reflexivity|].
  assert (Hb : heap w1 b = heap w b) by (apply H1o; congruence).
  repeat split.
  - rewrite H2o by exact Hne. exact H1.
  - rewrite H2, Hb, H1. reflexivity.
  - intros r Hra Hrb. rewrite H2o by exact Hrb. now apply H1o.
  - congruence.
  - congruence.
  - congruence.
Qed.

(** One match between distinct players, as the code runs it. *)
Lemma simulate_match_effect (player1 player2 : ref) (w : World) :
  player1 <> player2 ->
  let won := player1_wins w player1 player2 in
  let d1 := 32 * (score_of won
                  - expected_score (heap w player1) (rating (heap w player2))) in
  let d2 := 32 * (score_of (negb won)
                  - expected_score (heap w player2) (rating (heap w player1) + d1)) in
  exists w',
    simulate_match player1 player2 w = Ok (if won then 1%Z else 2%Z, w') /\
    heap w' player1 = played (heap w player1) d1 /\
    heap w' player2 = played (heap w player2) d2 /\
    (forall r, r <> player1 -> r <> player2 -> heap w' r = heap w r) /\
    next_ref w' = next_ref w /\ tape w' = tape w /\ cursor w' = S (cursor w).
Proof.
  intros Hne won d1 d2.
  unfold simulate_match.
  unfold bind at 1. unfold deref at 1.
  unfold bind at 1. unfold deref at 1.
  unfold bind at 1. rewrite random_random_effect.
  fold (player1_wins w player1 player2). fold won.
  set (w0 := mkWorld (heap w) (next_ref w) (tape w) (S (cursor w))).
  destruct won; simpl score_of in *.
  - destruct (update_pair_effect player1 player2 1 0 1%Z w0 Hne)
      as (w' & Hrun & H1 & H2 & Ho & Hn & Ht & Hc).
    exists w'. repeat split; assumption.
  - destruct (update_pair_effect player1 player2 0 1 2%Z w0 Hne)
      as (w' & Hrun & H1 & H2 & Ho & Hn & Ht & Hc).
    exists w'. repeat split; assumption.
Qed.

(** The same match with player2's update applied first. *)
Lemma simulate_match_reversed_effect (player1 player2 : ref) (w : World) :
  player1 <> player2 ->
  let won := player1_wins w player1 player2 in
  let d2 := 32 * (score_of (negb won)
                  - expected_score (heap w player2) (rating (heap w player1))) in
  let d1 := 32 * (score_of won
                  - expected_score (heap w player1) (rating (heap w player2) + d2)) in
  exists w',
    simulate_match_reversed player1 player2 w = Ok (if won then 1%Z else 2%Z, w') /\
    heap w' player1 = played (heap w player1) d1 /\
    heap w' player2 = played (heap w player2) d2.
Proof.
  intros Hne won d2 d1.
  assert (Hne' : player2 <> player1) by congruence.
  unfold simulate_match_reversed.
  unfold bind at 1. unfold deref at 1.
  unfold bind at 1. unfold deref at 1.
  unfold bind at 1. rewrite random_random_effect.
  fold (player1_wins w player1 player2). fold won.
  set (w0 := mkWorld (heap w) (next_ref w) (tape w) (S (cursor w))).
  destruct won; simpl score_of in *.
  - destruct (update_pair_effect player2 player1 0 1 1%Z w0 Hne')
      as (w' & Hrun & H2 & H1 & _).
    exists w'. repeat split; assumption.
  - destruct (update_pair_effect player2 player1 1 0 2%Z w0 Hne')
      as (w' & Hrun & H2 & H1 & _).
    exists w'. repeat split; assumption.
Qed.

(** ** The second update does not see the pre-match rating *)

Lemma score_of_negb (b : bool) : score_of (negb b) = 1 - score_of b.
Proof. destruct b; simpl; lra. Qed.

Lemma first_delta_nonzero (won : bool) (a b : R) :
  32 * (score_of won - expectedScore a b) <> 0.
Proof.
  pose proof (expectedScore_bounds a b) as Hb.
  destruct won; simpl; lra.
Qed.

Lemma expectedScore_shifted (a b d : R) :
  d <> 0 -> expectedScore a (b + d) <> expectedScore a b.
Proof.
  intros Hd Heq. apply expectedScore_inj_opponent in Heq. lra.
Qed.

Lemma expectedScore_decreasing (a b c : R) :
  b < c -> expectedScore a c < expectedScore a b.
Proof.
  intros Hbc. unfold expectedScore.
  pose proof (pow10_pos ((b - a) / 400)) as Hb.
  pose proof (pow10_pos ((c - a) / 400)) as Hc.
  assert (Hlt : Rpower 10 ((b - a) / 400) < Rpower 10 ((c - a) / 400))
    by (apply pow10_lt; lra).
  unfold Rdiv at 1 3. rewrite !Rmult_1_l.
  apply Rinv_lt_contravar; [|lra].
  apply Rmult_lt_0_compat; lra.
Qed.

Lemma Rltb_true (a b : R) : a < b -> Rltb a b = true.
Proof. intros H. unfold Rltb. destruct (Rlt_dec a b); [reflexivity | contradiction]. Qed.

Lemma unit_draw_duel_0 : unit_draw (duel 0) = 0.
Proof.
  unfold unit_draw, duel. simpl tape. simpl cursor.
  change (Z.of_N (0 mod 2 ^ 53)) with 0%Z.
  unfold Rdiv. apply Rmult_0_l.
Qed.

(** ** Claims about one simulated match *)

(** C1 (defect in the code): in a match between two distinct players,
    player1's update reads player2's pre-match rating, but player2's update
    reads player1's rating after player1's update has changed it; player2's
    new rating is never the one the pre-match rating would give, and applying
    player2's update first gives both players other final ratings. *)
Theorem simulate_match_order_dependent (player1 player2 : ref) (w : World) :
  player1 <> player2 ->
  let R1 := rating (heap w player1) in
  let R2 := rating (heap w player2) in
  let s1 := score_of (player1_wins w player1 player2) in
  let s2 := score_of (negb (player1_wins w player1 player2)) in
  exists z w1 w2,
    simulate_match player1 player2 w = Ok (z, w1) /\
    simulate_match_reversed player1 player2 w = Ok (z, w2) /\
    rating (heap w1 player1) = R1 + 32 * (s1 - expectedScore R1 R2) /\
    rating (heap w1 player2) =
      R2 + 32 * (s2 - expectedScore R2 (rating (heap w1 player1))) /\
    rating (heap w1 player2) <> R2 + 32 * (s2 - expectedScore R2 R1) /\
    rating (heap w1 player1) <> rating (heap w2 player1) /\
    rating (heap w1 player2) <> rating (heap w2 player2).
Proof.
  intros Hne R1 R2 s1 s2.
  destruct (simulate_match_effect player1 player2 w Hne)
    as (w1 & Hrun1 & H11 & H12 & _).
  destruct (simulate_match_reversed_effect player1 player2 w Hne)
    as (w2 & Hrun2 & H21 & H22).
  exists (if player1_wins w player1 player2 then 1%Z else 2%Z), w1, w2.
  rewrite H11, H12, H21, H22. simpl rating.
  rewrite !expected_score_eq. fold R1 R2 s1 s2.
  pose proof (first_delta_nonzero (player1_wins w player1 player2) R1 R2) as Hd1.
  pose proof (first_delta_nonzero (negb (player1_wins w player1 player2)) R2 R1) as Hd2.
  fold s1 in Hd1. fold s2 in Hd2.
  pose proof (expectedScore_shifted R2 R1 _ Hd1) as Hs1.
  pose proof (expectedScore_shifted R1 R2 _ Hd2) as Hs2.
  repeat split; try assumption; try lra.
Qed.

Lemma simulate_match_order_dependent_witness :
  exists z w1 w2,
    simulate_match 0%nat 1%nat (duel 0) = Ok (z, w1) /\
    simulate_match_reversed 0%nat 1%nat (duel 0) = Ok (z, w2) /\
    rating (heap w1 0%nat) <> rating (heap w2 0%nat) /\
    rating (heap w1 1%nat) <> rating (heap w2 1%nat).
Proof.
  destruct (simulate_match_order_dependent 0%nat 1%nat (duel 0))
    as (z & w1 & w2 & H1 & H2 & _ & _ & _ & H3 & H4).
  - discriminate.
  - exists z, w1, w2. repeat split; assumption.
Defined.

(** C2 (defect in the code): in a match between two distinct players the
    two rating changes are never opposite: player2's change is computed
    against player1's already updated rating. *)
Theorem simulate_match_not_zero_sum (player1 player2 : ref) (w : World) :
  player1 <> player2 ->
  exists z w',
    simulate_match player1 player2 w = Ok (z, w') /\
    let delta1 := rating (heap w' player1) - rating (heap w player1) in
    let delta2 := rating (heap w' player2) - rating (heap w player2) in
    delta1 <> - delta2.
Proof.
  intros Hne.
  destruct (simulate_match_effect player1 player2 w Hne)
    as (w' & Hrun & H1 & H2 & _).
  exists (if player1_wins w player1 player2 then 1%Z else 2%Z), w'.
  split; [exact Hrun|].
  rewrite H1, H2. simpl rating. rewrite !expected_score_eq.
  set (R1 := rating (heap w player1)). set (R2 := rating (heap w player2)).
  set (won := player1_wins w player1 player2).
  pose proof (first_delta_nonzero won R1 R2) as Hd1.
  pose proof (expectedScore_shifted R2 R1 _ Hd1) as Hs.
  pose proof (expectedScore_complement R1 R2) as Hc.
  rewrite score_of_negb in *.
  intros delta1 delta2 Heq. subst delta1 delta2. lra.
Qed.

Lemma simulate_match_not_zero_sum_witness :
  exists z w',
    simulate_match 0%nat 1%nat (duel 0) = Ok (z, w') /\
    rating (heap w' 0%nat) - rating (heap (duel 0) 0%nat)
      <> - (rating (heap w' 1%nat) - rating (heap (duel 0) 1%nat)).
Proof.
  apply (simulate_match_not_zero_sum 0%nat 1%nat (duel 0)). discriminate.
Defined.

(** C3 (defect in the code): two players at 1500 and an outcome draw below
    0.5: player1 wins and moves to exactly 1516, but player2 moves to
    1500 - 32 * expectedScore(1500, 1516), strictly above 1484. *)
Theorem simulate_match_equal_ratings (n : N) :
  unit_draw (duel n) < 1 / 2 ->
  exists w',
    simulate_match 0%nat 1%nat (duel n) = Ok (1%Z, w') /\
    rating (heap w' 0%nat) = 1516 /\
    rating (heap w' 1%nat) = 1500 - 32 * expectedScore 1500 1516 /\
    1484 < rating (heap w' 1%nat) < 1500.
Proof.
  intros Hdraw.
  assert (Hne : 0%nat <> 1%nat) by discriminate.
  destruct (simulate_match_effect 0%nat 1%nat (duel n) Hne)
    as (w' & Hrun & H1 & H2 & _).
  assert (Hwon : player1_wins (duel n) 0%nat 1%nat = true).
  { unfold player1_wins. apply Rltb_true.
    rewrite expected_score_eq. simpl heap. simpl rating.
    rewrite expectedScore_same. exact Hdraw. }
  rewrite Hwon in *. simpl score_of in *.
  rewrite !expected_score_eq in *. simpl heap in *. simpl rating in *.
  rewrite expectedScore_same in *.
  exists w'. split; [exact Hrun|].
  rewrite H1, H2. simpl rating.
  replace (1500 + 32 * (1 - 1 / 2)) with 1516 by lra.
  pose proof (expectedScore_decreasing 1500 1500 1516) as Hdec.
  rewrite expectedScore_same in Hdec.
  pose proof (expectedScore_bounds 1500 1516) as Hb.
  repeat split; lra.
Qed.

Lemma simulate_match_equal_ratings_witness :
  exists w',
    simulate_match 0%nat 1%nat (duel 0) = Ok (1%Z, w') /\
    rating (heap w' 0%nat) = 1516 /\
    1484 < rating (heap w' 1%nat).
Proof.
  destruct (simulate_match_equal_ratings 0) as (w' & H1 & H2 & _ & H3 & _).
  - rewrite unit_draw_duel_0. lra.
  - exists w'. repeat split; assumption.
Defined.

(** ** random.choice and find_match *)

Lemma random_choice_empty (w : World) : random_choice [] w = Raise IndexError.
Proof. reflexivity. Qed.



Lemma find_match_unfold (ms : MatchmakingSystem) (subject : ref) (w : World) :
  find_match ms subject w = random_choice (potential_opponents (heap w) ms subject) w.
Proof.
  unfold find_match, bind, deref, potential_opponents, band_opponents.
  now destruct (filter _ (players ms)).
Qed.

Lemma is_other_true (subject p : ref) : is_other subject p = true <-> p <> subject.
Proof.
  unfold is_other. rewrite negb_true_iff. apply Nat.eqb_neq.
Qed.

Lemma Rleb_true_iff (a b : R) : Rleb a b = true <-> a <= b.
Proof.
  unfold Rleb. destruct (Rle_dec a b); split; intros; auto; discriminate.
Qed.

Lemma band_opponents_spec (h : ref -> EloPlayer) (ms : MatchmakingSystem)
    (subject c : ref) :
  In c (band_opponents h ms subject) <-> eligible h ms subject c.
Proof.
  unfold band_opponents, eligible, in_range.
  rewrite filter_In, !andb_true_iff, is_other_true, !Rleb_true_iff. tauto.
Qed.

Lemma others_spec (ms : MatchmakingSystem) (subject c : ref) :
  In c (filter (is_other subject) (players ms)) <-> In c (players ms) /\ c <> subject.
Proof. rewrite filter_In, is_other_true. tauto. Qed.

Lemma potential_opponents_in_band (h : ref -> EloPlayer) (ms : MatchmakingSystem)
    (subject : ref) :
  (exists c, eligible h ms subject c) ->
  potential_opponents h ms subject = band_opponents h ms subject.
Proof.
  intros [c Hc]. apply band_opponents_spec in Hc.
  unfold potential_opponents.
  destruct (band_opponents h ms subject); [contradiction | reflexivity].
Qed.

Lemma potential_opponents_fallback (h : ref -> EloPlayer) (ms : MatchmakingSystem)
    (subject : ref) :
  ~ (exists c, eligible h ms subject c) ->
  potential_opponents h ms subject = filter (is_other subject) (players ms).
Proof.
  intros Hnone. unfold potential_opponents.
  destruct (band_opponents h ms subject) as [| c l] eqn:Hband; [reflexivity|].
  exfalso. apply Hnone. exists c. apply band_opponents_spec.
  rewrite Hband. now left.
Qed.

Lemma potential_opponents_others (h : ref -> EloPlayer) (ms : MatchmakingSystem)
    (subject c : ref) :
  In c (potential_opponents h ms subject) -> In c (players ms) /\ c <> subject.
Proof.
  unfold potential_opponents.
  destruct (band_opponents h ms subject) as [| a l] eqn:Hband.
  - apply others_spec.
  - rewrite <- Hband. intros Hc. apply band_opponents_spec in Hc.
    destruct Hc as (Hin & Hne & _). now split.
Qed.


Lemma potential_opponents_NoDup (h : ref -> EloPlayer) (ms : MatchmakingSystem)
    (subject : ref) :
  NoDup (players ms) -> NoDup (potential_opponents h ms subject).
Proof.
  intros Hnd. unfold potential_opponents.
  destruct (band_opponents h ms subject) as [| a l] eqn:Hband.
  - now apply NoDup_filter.
  - rewrite <- Hband. now apply NoDup_filter.
Qed.

Lemma another_member (l : list ref) (subject : ref) :
  (2 <= length l)%nat -> NoDup l -> exists c, In c l /\ c <> subject.
Proof.
  intros Hlen Hnd.
  destruct l as [| a [| b l]]; simpl in Hlen; try lia.
  destruct (Nat.eq_dec a subject) as [-> | Ha].
  - exists b. split; [right; now left|].
    inversion Hnd as [| x l' Hnotin _]. subst.
    intros ->. apply Hnotin. now left.
  - exists a. split; [now left | exact Ha].
Qed.



Lemma find_match_raises (ms : MatchmakingSystem) (subject : ref) (w : World) :
  (forall q, In q (players ms) -> q = subject) ->
  find_match ms subject w = Raise IndexError.
Proof.
  intros Honly. rewrite find_match_unfold.
  destruct (potential_opponents (heap w) ms subject) as [| c l] eqn:Hpo.
  - apply random_choice_empty.
  - exfalso.
    assert (Hc : In c (players ms) /\ c <> subject).
    { apply potential_opponents_others with (heap w). rewrite Hpo. now left. }
    destruct Hc as [Hin Hne]. now apply Hne, Honly.
Qed.

(** C8: with fewer than two members in the population (the subject alone,
    or nobody), find_match raises IndexError: it neither loops nor returns
    a player. *)
Theorem find_match_small_population (ms : MatchmakingSystem) (subject : ref) (w : World) :
  (length (players ms) < 2)%nat ->
  players ms = [] \/ In subject (players ms) ->
  find_match ms subject w = Raise IndexError.
Proof.
  intros Hlen Hsub. apply find_match_raises. intros q Hq.
  destruct (players ms) as [| a [| b l]]; simpl in Hlen; try lia.
  - contradiction.
  - destruct Hsub as [Hsub | [Hsub | []]]; [discriminate|].
    destruct Hq as [Hq | []]. congruence.
Qed.

Lemma find_match_small_population_witness :
  find_match (mkMatchmakingSystem [0%nat] default_rating_range_percentage)
    0%nat (duel 0)
  = Raise IndexError.
Proof.
  apply find_match_small_population.
  - simpl. lia.
  - right. simpl. now left.
Defined.

(** ** The history invariant *)

Lemma EloPlayer_init_effect (initial_rating : R) (w : World) :
  exists w',
    EloPlayer_init initial_rating w = Ok (next_ref w, w') /\
    heap w' (next_ref w) = mkEloPlayer initial_rating [initial_rating] 0 /\
    (forall r, r <> next_ref w -> heap w' r = heap w r) /\
    next_ref w' = S (next_ref w) /\ same_random w w'.
Proof.
  unfold EloPlayer_init, alloc. eexists. split; [reflexivity|]. simpl.
  repeat split.
  - apply upd_same.
  - intros r Hr. now apply upd_other.
Qed.










Lemma create_players_effect (n : nat) (initial_rating : R) (w : World) :
  exists w',
    create_players n initial_rating w = Ok (seq (next_ref w) n, w') /\
    (forall r, In r (seq (next_ref w) n) ->
       heap w' r = mkEloPlayer initial_rating [initial_rating] 0) /\
    (forall r, ~ In r (seq (next_ref w) n) -> heap w' r = heap w r) /\
    same_random w w'.
Proof.
  revert w. induction n as [| n IH]; intros w.
  - exists w. simpl. repeat split; auto. intros r [].
  - simpl create_players. unfold bind at 1.
    destruct (EloPlayer_init_effect initial_rating w)
      as (w1 & -> & Hnew & Hother & Hnext & Ht & Hc).
    unfold bind at 1.
    destruct (IH w1) as (w' & -> & Hfresh & Hold & Ht' & Hc').
    rewrite Hnext in *.
    exists w'. unfold ret. split; [reflexivity|]. simpl seq.
    repeat split.
    + intros r [<- | Hr].
      * rewrite Hold; [exact Hnew|]. rewrite in_seq. lia.
      * now apply Hfresh.
    + intros r Hr. simpl in Hr.
      rewrite Hold by tauto. apply Hother. intros ->. tauto.
    + congruence.
    + congruence.
Qed.


(** ** The k-factor of simulated matches *)

Lemma duel_player1_rating (z : Z) (w' : World) :
  simulate_match 0%nat 1%nat (duel 0) = Ok (z, w') -> rating (heap w' 0%nat) = 1516.
Proof.
  intros Hrun.
  assert (Hne : 0%nat <> 1%nat) by discriminate.
  destruct (simulate_match_effect 0%nat 1%nat (duel 0) Hne)
    as (w1 & Hrun1 & H1 & _).
  rewrite Hrun1 in Hrun. injection Hrun as _ <-.
  assert (Hwon : player1_wins (duel 0) 0%nat 1%nat = true).
  { unfold player1_wins. apply Rltb_true.
    rewrite unit_draw_duel_0, expected_score_eq. simpl heap. simpl rating.
    rewrite expectedScore_same. lra. }
  rewrite H1, Hwon, expected_score_eq. simpl.
  rewrite expectedScore_same. lra.
Qed.

(** C9, as stated, fails: with a configured k-factor of 16, two 1500-rated
    players and player1 winning, player1 would move to 1508; it moves
    to 1516. *)
Lemma k_factor_not_configurable :
  ~ (forall (k_factor : R) (player1 player2 : ref) (w : World),
       player1 <> player2 ->
       exists z w',
         simulate_match player1 player2 w = Ok (z, w') /\
         rating (heap w' player1) =
           rating (heap w player1)
           + k_factor * (score_of (player1_wins w player1 player2)
                         - expected_score (heap w player1) (rating (heap w player2)))).
Proof.
  intros Hclaim.
  destruct (Hclaim 16 0%nat 1%nat (duel 0)) as (z & w' & Hrun & Hrating);
    [discriminate|].
  rewrite (duel_player1_rating z w' Hrun) in Hrating.
  rewrite expected_score_eq in Hrating. simpl heap in Hrating. simpl rating in Hrating.
  rewrite expectedScore_same in Hrating.
  destruct (player1_wins (duel 0) 0%nat 1%nat); simpl in Hrating; lra.
Qed.

(** ** Counting matches over a run *)








(** * Further properties of the code *)

Lemma Rltb_false (a b : R) : b <= a -> Rltb a b = false.
Proof. intros H. unfold Rltb. destruct (Rlt_dec a b); [lra | reflexivity]. Qed.

Lemma Rltb_cases (a b : R) :
  (Rltb a b = true /\ a < b) \/ (Rltb a b = false /\ b <= a).
Proof.
  destruct (Rlt_le_dec a b) as [H | H].
  - left. split; [now apply Rltb_true | exact H].
  - right. split; [now apply Rltb_false | exact H].
Qed.

(** ** What a whole run touches *)










(** X12: a run of no rounds (num_matches zero or negative) always returns,
    also with fewer than two players: the log is empty, no draw is
    consumed, and every returned player is as created, at the initial
    rating with that rating as its only history entry and no match played. *)
Theorem monte_carlo_no_rounds (num_players num_matches : Z) (initial_rating : R)
    (w : World) :
  (num_matches <= 0)%Z ->
  exists w',
    monte_carlo_elo_simulation num_players num_matches initial_rating w
      = Ok ((seq (next_ref w) (Z.to_nat num_players), []), w') /\
    cursor w' = cursor w /\
    forall p, In p (seq (next_ref w) (Z.to_nat num_players)) ->
      heap w' p = mkEloPlayer initial_rating [initial_rating] 0.
Proof.
  intros Hnm. unfold monte_carlo_elo_simulation. unfold bind at 1.
  destruct (create_players_effect (Z.to_nat num_players) initial_rating w)
    as (w1 & -> & Hfresh & _ & _ & Hc).
  replace (Z.to_nat num_matches) with 0%nat by lia.
  exists w1. split; [reflexivity|]. split; [exact Hc | exact Hfresh].
Qed.

Lemma monte_carlo_no_rounds_witness :
  exists w',
    monte_carlo_elo_simulation 1 0 1500 (duel 0) = Ok (([2%nat], []), w') /\
    heap w' 2%nat = mkEloPlayer 1500 [1500] 0.
Proof.
  destruct (monte_carlo_no_rounds 1 0 1500 (duel 0)) as (w' & Hrun & _ & Hfresh).
  - lia.
  - exists w'. split; [exact Hrun|]. apply Hfresh. simpl. now left.
Defined.

(** ** What every returned player satisfies *)








(** ** Population totals over a run *)








(** ** The ranking and the extremes of the summary *)

Lemma insert_by_rating_perm (h : ref -> EloPlayer) (p : ref) (l : list ref) :
  Permutation (p :: l) (insert_by_rating h p l).
Proof.
  induction l as [| q l IH]; simpl.
  - apply Permutation_refl.
  - destruct (Rltb (rating (h p)) (rating (h q))).
    + eapply Permutation_trans; [apply perm_swap|]. now apply perm_skip.
    + apply Permutation_refl.
Qed.

Lemma sorted_players_perm (h : ref -> EloPlayer) (ps : list ref) :
  Permutation ps (sorted_players h ps).
Proof.
  induction ps as [| p ps IH]; simpl.
  - apply perm_nil.
  - eapply Permutation_trans; [|apply insert_by_rating_perm]. now apply perm_skip.
Qed.

Lemma insert_by_rating_sorted (h : ref -> EloPlayer) (p : ref) (l : list ref) :
  StronglySorted (outranks h) l -> StronglySorted (outranks h) (insert_by_rating h p l).
Proof.
  induction l as [| q l IH]; intros Hs; simpl.
  - constructor; constructor.
  - inversion Hs as [| q' l' Hl Hq]; subst.
    destruct (Rltb_cases (rating (h p)) (rating (h q))) as [[-> Hlt] | [-> Hge]].
    + constructor; [now apply IH|].
      apply (Permutation_Forall (insert_by_rating_perm h p l)).
      constructor; [unfold outranks; lra | exact Hq].
    + constructor; [exact Hs|].
      constructor; [exact Hge|].
      apply Forall_impl with (P := outranks h q); [|exact Hq].
      unfold outranks. intros x Hx. lra.
Qed.

Lemma sorted_players_sorted (h : ref -> EloPlayer) (ps : list ref) :
  StronglySorted (outranks h) (sorted_players h ps).
Proof.
  induction ps as [| p ps IH]; simpl.
  - constructor.
  - now apply insert_by_rating_sorted.
Qed.

Lemma sorted_app_outranks (h : ref -> EloPlayer) (l1 l2 : list ref) (a b : ref) :
  StronglySorted (outranks h) (l1 ++ l2) -> In a l1 -> In b l2 -> outranks h a b.
Proof.
  induction l1 as [| x l1 IH]; intros Hs Ha Hb; [contradiction|].
  simpl in Hs. inversion Hs as [| x' l' Hl Hx]; subst.
  destruct Ha as [<- | Ha].
  - rewrite Forall_forall in Hx. apply Hx. apply in_or_app. now right.
  - now apply IH.
Qed.

Lemma sorted_split_outranks (h : ref -> EloPlayer) (l : list ref) (k : nat) (a b : ref) :
  StronglySorted (outranks h) l ->
  In a (firstn k l) -> In b (skipn k l) -> outranks h a b.
Proof.
  intros Hs. rewrite <- (firstn_skipn k l) in Hs.
  now apply sorted_app_outranks.
Qed.

Lemma sorted_last_lowest (h : ref -> EloPlayer) (l : list ref) (d x : ref) :
  StronglySorted (outranks h) l -> In x l -> outranks h x (last l d).
Proof.
  intros Hs. revert x. induction Hs as [| a l Hl IH Ha]; intros x Hx; [contradiction|].
  destruct l as [| b l'].
  - destruct Hx as [<- | []]. simpl. unfold outranks. lra.
  - change (last (a :: b :: l') d) with (last (b :: l') d).
    destruct Hx as [<- | Hx].
    + rewrite Forall_forall in Ha. apply Ha.
      destruct (exists_last (l := b :: l')) as (l0 & z & Heq); [discriminate|].
      rewrite Heq, last_last. apply in_or_app. right. now left.
    + now apply IH.
Qed.

Lemma last_skipn (l : list ref) (k : nat) (d : ref) :
  (k < length l)%nat -> last (skipn k l) d = last l d.
Proof.
  revert k. induction l as [| a l IH]; intros k Hk; [simpl in Hk; lia|].
  destruct k as [| k]; [reflexivity|].
  simpl skipn. simpl in Hk. rewrite IH by lia.
  destruct l; [simpl in Hk; lia | reflexivity].
Qed.

Lemma fold_max_spec (l : list R) (x : R) :
  let m := fold_left (fun m y => if Rltb m y then y else m) l x in
  x <= m /\ Forall (fun y => y <= m) l /\ (m = x \/ In m l).
Proof.
  revert x. induction l as [| y l IH]; intros x; simpl.
  - repeat split; [lra | constructor | now left].
  - destruct (Rltb_cases x y) as [[-> Hlt] | [-> Hge]].
    + destruct (IH y) as (H1 & H2 & H3).
      repeat split; [lra | constructor; assumption |].
      destruct H3 as [H3 | H3]; [right; left; now symmetry | right; now right].
    + destruct (IH x) as (H1 & H2 & H3).
      repeat split; [lra | constructor; [lra | assumption] | tauto].
Qed.

Lemma fold_min_spec (l : list R) (x : R) :
  let m := fold_left (fun m y => if Rltb y m then y else m) l x in
  m <= x /\ Forall (fun y => m <= y) l /\ (m = x \/ In m l).
Proof.
  revert x. induction l as [| y l IH]; intros x; simpl.
  - repeat split; [lra | constructor | now left].
  - destruct (Rltb_cases y x) as [[-> Hlt] | [-> Hge]].
    + destruct (IH y) as (H1 & H2 & H3).
      repeat split; [lra | constructor; assumption |].
      destruct H3 as [H3 | H3]; [right; left; now symmetry | right; now right].
    + destruct (IH x) as (H1 & H2 & H3).
      repeat split; [lra | constructor; [lra | assumption] | tauto].
Qed.

Lemma py_max_spec (l : list R) :
  l <> [] ->
  exists m, py_max l = Some m /\ In m l /\ forall y, In y l -> y <= m.
Proof.
  intros Hne. destruct l as [| x l]; [congruence|].
  destruct (fold_max_spec l x) as (H1 & H2 & H3).
  eexists. split; [reflexivity|]. split.
  - destruct H3 as [H3 | H3]; [left; now symmetry | now right].
  - intros y [<- | Hy]; [exact H1|]. rewrite Forall_forall in H2. now apply H2.
Qed.

Lemma py_min_spec (l : list R) :
  l <> [] ->
  exists m, py_min l = Some m /\ In m l /\ forall y, In y l -> m <= y.
Proof.
  intros Hne. destruct l as [| x l]; [congruence|].
  destruct (fold_min_spec l x) as (H1 & H2 & H3).
  eexists. split; [reflexivity|]. split.
  - destruct H3 as [H3 | H3]; [left; now symmetry | now right].
  - intros y [<- | Hy]; [exact H1|]. rewrite Forall_forall in H2. now apply H2.
Qed.

Lemma sorted_players_nonempty (h : ref -> EloPlayer) (ps : list ref) :
  ps <> [] -> sorted_players h ps <> [].
Proof.
  intros Hne Hnil.
  pose proof (sorted_players_perm h ps) as Hperm. rewrite Hnil in Hperm.
  apply Permutation_sym, Permutation_nil in Hperm. contradiction.
Qed.

(** X17: the ranking printed after a run lists exactly the players of the
    population, each as often as it occurs there, from the highest rating
    down; no player left out of the top five has a higher rating than a
    listed one, and none left out of the bottom five a lower one.  With
    fewer than five players both lists are the whole ranking. *)
Theorem ranking_lists_extremes (h : ref -> EloPlayer) (ps : list ref) :
  Permutation ps (sorted_players h ps) /\
  StronglySorted (fun a b => rating (h b) <= rating (h a)) (sorted_players h ps) /\
  (forall a b, In a (top_five h ps) -> In b (skipn 5 (sorted_players h ps)) ->
     rating (h b) <= rating (h a)) /\
  (forall a b, In a (bottom_five h ps) ->
     In b (firstn (length ps - 5) (sorted_players h ps)) ->
     rating (h a) <= rating (h b)) /\
  length (top_five h ps) = Nat.min 5 (length ps) /\
  length (bottom_five h ps) = Nat.min 5 (length ps).
Proof.
  pose proof (sorted_players_perm h ps) as Hperm.
  pose proof (sorted_players_sorted h ps) as Hsorted.
  pose proof (Permutation_length Hperm) as Hlen.
  split; [exact Hperm|]. split; [exact Hsorted|]. split; [|split; [|split]].
  - intros a b Ha Hb. now apply (sorted_split_outranks h _ 5 a b Hsorted).
  - intros a b Ha Hb. unfold bottom_five in Ha. rewrite <- Hlen in Ha.
    now apply (sorted_split_outranks h _ (length ps - 5) b a Hsorted).
  - unfold top_five. rewrite length_firstn. lia.
  - unfold bottom_five. rewrite length_skipn. lia.
Qed.

(** X18: for a non-empty population the maximum rating printed is the
    rating of the first player of the top five, and the minimum rating
    printed is the rating of the last player of the bottom five. *)
Theorem summary_extremes (h : ref -> EloPlayer) (ps : list ref) :
  ps <> [] ->
  exists best worst,
    hd_error (top_five h ps) = Some best /\
    last (bottom_five h ps) best = worst /\
    In best ps /\ In worst ps /\
    py_max (final_ratings h ps) = Some (rating (h best)) /\
    py_min (final_ratings h ps) = Some (rating (h worst)).
Proof.
  intros Hne.
  pose proof (sorted_players_perm h ps) as Hperm.
  pose proof (sorted_players_sorted h ps) as Hsorted.
  pose proof (sorted_players_nonempty h ps Hne) as Hsne.
  unfold top_five, bottom_five.
  destruct (sorted_players h ps) as [| best l] eqn:Hs; [congruence|].
  set (worst := last (best :: l) best).
  assert (Hworst_in : In worst (best :: l)).
  { unfold worst. destruct (exists_last (l := best :: l)) as (l0 & z & Heq);
      [discriminate|].
    rewrite Heq, last_last. apply in_or_app. right. now left. }
  assert (Hin : forall x, In x ps <-> In x (best :: l)).
  { intros x. split; apply Permutation_in;
      [exact Hperm | now apply Permutation_sym]. }
  assert (Hfr : final_ratings h ps <> []).
  { destruct ps; [congruence | discriminate]. }
  exists best, worst.
  split; [reflexivity|]. split.
  { apply last_skipn. simpl. lia. }
  split; [apply Hin; now left|]. split; [now apply Hin|].
  split.
  - destruct (py_max_spec _ Hfr) as (m & -> & Hm & Hub). f_equal.
    apply in_map_iff in Hm. destruct Hm as (p & <- & Hp).
    apply Rle_antisym.
    + inversion Hsorted as [| b' l' _ Hb]; subst.
      apply Hin in Hp. destruct Hp as [<- | Hp]; [lra|].
      rewrite Forall_forall in Hb. now apply Hb.
    + apply Hub. apply in_map_iff. exists best. split; [reflexivity|].
      apply Hin. now left.
  - destruct (py_min_spec _ Hfr) as (m & -> & Hm & Hlb). f_equal.
    apply in_map_iff in Hm. destruct Hm as (p & <- & Hp).
    apply Rle_antisym.
    + apply Hlb. apply in_map_iff. exists worst. split; [reflexivity|].
      now apply Hin.
    + apply Hin in Hp.
      apply (sorted_last_lowest h (best :: l) best p Hsorted Hp).
Qed.

Lemma summary_extremes_witness :
  exists best worst,
    hd_error (top_five (heap (duel 0)) [0%nat; 1%nat]) = Some best /\
    py_max (final_ratings (heap (duel 0)) [0%nat; 1%nat]) = Some (rating (heap (duel 0) best)) /\
    py_min (final_ratings (heap (duel 0)) [0%nat; 1%nat]) = Some (rating (heap (duel 0) worst)).
Proof.
  destruct (summary_extremes (heap (duel 0)) [0%nat; 1%nat])
    as (best & worst & H1 & _ & _ & _ & H2 & H3).
  - discriminate.
  - exists best, worst. repeat split; assumption.
Defined.

(** * Properties over IEEE binary64 *)

Module DoubleFacts.
Import Double.
Local Open Scope float_scope.
Local Open Scope double_scope.

(** ** Heap and updates *)

Lemma dbl_upd_same (h : ref -> EloPlayer) (r : ref) (p : EloPlayer) : upd h r p r = p.
Proof. unfold upd. now rewrite Nat.eqb_refl. Qed.

Lemma dbl_upd_other (h : ref -> EloPlayer) (r r' : ref) (p : EloPlayer) :
  r' <> r -> upd h r p r' = h r'.
Proof. intros H. unfold upd. apply Nat.eqb_neq in H. now rewrite H. Qed.

Section WithLibm.

Variable libm_pow10 : float -> float.

Lemma dbl_pow10_raises (x : float) (e : exception) :
  pow10 libm_pow10 x = inl e -> e = OverflowError.
Proof.
  unfold pow10.
  destruct (x =? 0); [discriminate|].
  destruct (is_nan x); [discriminate|].
  destruct (is_infinity x); [discriminate|].
  destruct (is_infinity (libm_pow10 x)); [|discriminate].
  now intros [= <-].
Qed.

Lemma dbl_expected_score_raises (p : EloPlayer) (o : float) (e : exception) :
  expected_score libm_pow10 p o = inl e -> e = OverflowError \/ e = ZeroDivisionError.
Proof.
  unfold expected_score.
  destruct (pow10 libm_pow10 ((o - rating p) / 400)) as [e' | q] eqn:Hpow.
  - intros [= <-]. left. now apply dbl_pow10_raises with ((o - rating p) / 400).
  - destruct (1 + q =? 0); [|discriminate]. intros [= <-]. now right.
Qed.

Lemma dbl_expected_score_overflow (p : EloPlayer) (o : float) :
  let x := (o - rating p) / 400 in
  (x =? 0) = false -> is_nan x = false -> is_infinity x = false ->
  is_infinity (libm_pow10 x) = true ->
  expected_score libm_pow10 p o = inl OverflowError.
Proof.
  intros x H0 Hnan Hinf Hover. unfold expected_score, pow10. fold x.
  now rewrite H0, Hnan, Hinf, Hover.
Qed.

Lemma dbl_update_rating_ok (self : ref) (o s k expected : float) (w : World) :
  expected_score libm_pow10 (heap w self) o = inr expected ->
  exists w',
    update_rating libm_pow10 self o s k w = Ok (k * (s - expected)) w' /\
    heap w' self = played (heap w self) (k * (s - expected)) /\
    (forall r, r <> self -> heap w' r = heap w r) /\
    next_ref w' = next_ref w /\ tape w' = tape w /\ cursor w' = cursor w.
Proof.
  intros He. unfold update_rating, bind, deref, lift, mutate, ret. rewrite He. simpl.
  eexists. split; [reflexivity|]. simpl. repeat split.
  - rewrite !dbl_upd_same. reflexivity.
  - intros r Hr. now rewrite !dbl_upd_other by assumption.
Qed.

Lemma dbl_update_rating_raise (self : ref) (o s k : float) (e : exception) (w : World) :
  expected_score libm_pow10 (heap w self) o = inl e ->
  update_rating libm_pow10 self o s k w = Raise e w.
Proof.
  intros He. unfold update_rating, bind, deref, lift. now rewrite He.
Qed.

(** C4, amended: update_rating first computes the expected score in double
    arithmetic.  When that succeeds it returns
    delta = k_factor * (actual_score - expected), sets the rating to
    rating + delta, appends the new rating to the history and raises
    matches_played by exactly one, changing nothing else.  When [10 ** x]
    overflows it raises OverflowError and changes nothing. *)
Theorem update_rating_returns_or_raises (self : ref)
    (opponent_rating actual_score k_factor : float) (w : World) :
  let x := (opponent_rating - rating (heap w self)) / 400 in
  match expected_score libm_pow10 (heap w self) opponent_rating with
  | inr expected =>
      let delta := k_factor * (actual_score - expected) in
      (exists p, pow10 libm_pow10 x = inr p /\ expected = 1 / (1 + p)) /\
      exists w',
        update_rating libm_pow10 self opponent_rating actual_score k_factor w
          = Ok delta w' /\
        rating (heap w' self) = rating (heap w self) + delta /\
        rating_history (heap w' self)
          = rating_history (heap w self) ++ [rating (heap w' self)] /\
        matches_played (heap w' self) = (matches_played (heap w self) + 1)%Z /\
        (forall r, r <> self -> heap w' r = heap w r) /\
        next_ref w' = next_ref w /\ tape w' = tape w /\ cursor w' = cursor w
  | inl e =>
      (e = OverflowError \/ e = ZeroDivisionError) /\
      update_rating libm_pow10 self opponent_rating actual_score k_factor w = Raise e w
  end /\
  ((x =? 0) = false -> is_nan x = false -> is_infinity x = false ->
   is_infinity (libm_pow10 x) = true ->
   update_rating libm_pow10 self opponent_rating actual_score k_factor w
     = Raise OverflowError w).
Proof.
  intros x. split.
  - destruct (expected_score libm_pow10 (heap w self) opponent_rating)
      as [e | expected] eqn:He.
    + split; [now apply dbl_expected_score_raises with (heap w self) opponent_rating|].
      now apply dbl_update_rating_raise.
    + split.
      * unfold expected_score in He. fold x in He.
        destruct (pow10 libm_pow10 x) as [e | p]; [discriminate|].
        destruct (1 + p =? 0); [discriminate|].
        injection He as <-. now exists p.
      * destruct (dbl_update_rating_ok self opponent_rating actual_score k_factor
                    expected w He) as (w' & Hrun & Hself & Hother & Hn & Ht & Hc).
        exists w'. split; [exact Hrun|]. rewrite Hself. simpl.
        repeat split; assumption.
  - intros H0 Hnan Hinf Hover. apply dbl_update_rating_raise.
    now apply dbl_expected_score_overflow.
Qed.

End WithLibm.

Lemma update_rating_returns_or_raises_witness :
  exists w',
    update_rating sampled_pow10 0%nat 1516 0 32 (world_of [1500])
      = Ok (-0x1.e8702cbc40036p+3) w' /\
    rating (heap w' 0%nat) = 0x1.732f1fa6878p+10 /\
    rating_history (heap w' 0%nat) = [1500; 0x1.732f1fa6878p+10] /\
    matches_played (heap w' 0%nat) = 1%Z.
Proof.
  assert (He : expected_score sampled_pow10 (heap (world_of [1500]) 0%nat) 1516
               = inr 0x1.e8702cbc40036p-2) by reflexivity.
  destruct (update_rating_returns_or_raises sampled_pow10 0%nat 1516 0 32
              (world_of [1500])) as [H _].
  rewrite He in H. cbv zeta in H.
  destruct H as (_ & w' & Hrun & Hr & Hh & Hm & _).
  exists w'. split; [exact Hrun|]. rewrite Hh, Hr, Hm. repeat split.
Defined.

(** C4, as stated, fails: a player rated 0.0 updated against an opponent
    rated 200000.0 raises OverflowError, [10 ** 500.0] being out of range. *)
Lemma update_rating_overflows :
  update_rating sampled_pow10 0%nat 200000 1 32 (world_of [0])
  = Raise OverflowError (world_of [0]).
Proof. reflexivity. Qed.

(** ** random.choice and find_match *)

Lemma dbl_choice_index_lt (w : World) (len : nat) :
  len <> 0%nat -> (choice_index w len < len)%nat.
Proof.
  intros Hlen. unfold choice_index.
  assert (Hnz : N.of_nat len <> 0%N) by lia.
  pose proof (N.mod_upper_bound (tape w (cursor w)) (N.of_nat len) Hnz). lia.
Qed.

Lemma dbl_random_choice_effect (seq : list ref) (w : World) :
  seq <> [] ->
  exists x,
    random_choice seq w = Ok x (advance w) /\
    nth_error seq (choice_index w (length seq)) = Some x /\
    In x seq.
Proof.
  intros Hne. destruct seq as [| a l]; [congruence|].
  set (seq := a :: l).
  assert (Hlt : (choice_index w (length seq) < length seq)%nat)
    by (apply dbl_choice_index_lt; discriminate).
  exists (nth (choice_index w (length seq)) seq a).
  split; [reflexivity|]. split.
  - now apply nth_error_nth'.
  - now apply nth_In.
Qed.

Lemma dbl_find_match_unfold (ms : MatchmakingSystem) (subject : ref) (w : World) :
  find_match ms subject w = random_choice (potential_opponents (heap w) ms subject) w.
Proof.
  unfold find_match, bind, deref, potential_opponents, band_opponents.
  now destruct (filter _ (players ms)).
Qed.

Lemma dbl_is_other_true (subject p : ref) : is_other subject p = true <-> p <> subject.
Proof.
  unfold is_other. rewrite negb_true_iff. apply Nat.eqb_neq.
Qed.

Lemma dbl_band_opponents_spec (h : ref -> EloPlayer) (ms : MatchmakingSystem)
    (subject c : ref) :
  In c (band_opponents h ms subject) <-> eligible h ms subject c.
Proof.
  unfold band_opponents, eligible, in_range.
  rewrite filter_In, !andb_true_iff, dbl_is_other_true. tauto.
Qed.

Lemma dbl_others_spec (ms : MatchmakingSystem) (subject c : ref) :
  In c (filter (is_other subject) (players ms)) <-> In c (players ms) /\ c <> subject.
Proof. rewrite filter_In, dbl_is_other_true. tauto. Qed.

Lemma dbl_potential_in_band (h : ref -> EloPlayer) (ms : MatchmakingSystem)
    (subject : ref) :
  (exists c, eligible h ms subject c) ->
  potential_opponents h ms subject = band_opponents h ms subject.
Proof.
  intros [c Hc]. apply dbl_band_opponents_spec in Hc.
  unfold potential_opponents.
  destruct (band_opponents h ms subject); [contradiction | reflexivity].
Qed.

Lemma dbl_potential_fallback (h : ref -> EloPlayer) (ms : MatchmakingSystem)
    (subject : ref) :
  ~ (exists c, eligible h ms subject c) ->
  potential_opponents h ms subject = filter (is_other subject) (players ms).
Proof.
  intros Hnone. unfold potential_opponents.
  destruct (band_opponents h ms subject) as [| c l] eqn:Hband; [reflexivity|].
  exfalso. apply Hnone. exists c. apply dbl_band_opponents_spec.
  rewrite Hband. now left.
Qed.

Lemma dbl_potential_others (h : ref -> EloPlayer) (ms : MatchmakingSystem)
    (subject c : ref) :
  In c (potential_opponents h ms subject) -> In c (players ms) /\ c <> subject.
Proof.
  unfold potential_opponents.
  destruct (band_opponents h ms subject) as [| a l] eqn:Hband.
  - apply dbl_others_spec.
  - rewrite <- Hband. intros Hc. apply dbl_band_opponents_spec in Hc.
    destruct Hc as (Hin & Hne & _). now split.
Qed.

Lemma dbl_potential_nonempty (h : ref -> EloPlayer) (ms : MatchmakingSystem)
    (subject c : ref) :
  In c (players ms) -> c <> subject -> potential_opponents h ms subject <> [].
Proof.
  intros Hin Hne. unfold potential_opponents.
  destruct (band_opponents h ms subject) as [| a l]; [|discriminate].
  intros Hnil.
  assert (Hc : In c (filter (is_other subject) (players ms)))
    by (apply dbl_others_spec; now split).
  rewrite Hnil in Hc. contradiction.
Qed.

Lemma dbl_potential_NoDup (h : ref -> EloPlayer) (ms : MatchmakingSystem)
    (subject : ref) :
  NoDup (players ms) -> NoDup (potential_opponents h ms subject).
Proof.
  intros Hnd. unfold potential_opponents.
  destruct (band_opponents h ms subject) as [| a l] eqn:Hband.
  - now apply NoDup_filter.
  - rewrite <- Hband. now apply NoDup_filter.
Qed.

Lemma dbl_find_match_effect (ms : MatchmakingSystem) (subject c : ref) (w : World) :
  In c (players ms) -> c <> subject ->
  exists q,
    find_match ms subject w = Ok q (advance w) /\
    nth_error (potential_opponents (heap w) ms subject)
      (choice_index w (length (potential_opponents (heap w) ms subject))) = Some q /\
    In q (players ms) /\ q <> subject.
Proof.
  intros Hin Hne. rewrite dbl_find_match_unfold.
  destruct (dbl_random_choice_effect (potential_opponents (heap w) ms subject) w)
    as (q & Hrun & Hnth & Hq).
  { now apply dbl_potential_nonempty with c. }
  exists q. split; [exact Hrun|]. split; [exact Hnth|].
  now apply dbl_potential_others with (heap w).
Qed.

Lemma dbl_find_match_result (ms : MatchmakingSystem) (subject q : ref) (w w' : World) :
  find_match ms subject w = Ok q w' ->
  w' = advance w /\
  nth_error (potential_opponents (heap w) ms subject)
    (choice_index w (length (potential_opponents (heap w) ms subject))) = Some q /\
  In q (players ms) /\ q <> subject.
Proof.
  rewrite dbl_find_match_unfold. intros Hrun.
  destruct (potential_opponents (heap w) ms subject) as [| c l] eqn:Hpo;
    [discriminate|].
  destruct (dbl_random_choice_effect (c :: l) w) as (x & Hx & Hnth & Hin);
    [discriminate|].
  rewrite Hx in Hrun. injection Hrun as <- <-.
  split; [reflexivity|]. split; [exact Hnth|].
  apply dbl_potential_others with (heap w). now rewrite Hpo.
Qed.

(** C5: for a population of at least two players and a subject in it,
    find_match never returns the subject.  The candidates are the other
    members whose rating r satisfies min_rating <= r <= max_rating, with
    min_rating = rating * (1 - pct) and max_rating = rating * (1 + pct) as
    the doubles the code computes; when there is none they are all the
    other members.  What find_match returns is the candidate at the index
    random.choice draws, no rating is changed, and every candidate is
    returned for some draw; when the members are distinct objects each
    candidate stands once in the list and find_match does return. *)
Theorem find_match_candidates (ms : MatchmakingSystem) (subject : ref) (w : World) :
  (2 <= length (players ms))%nat ->
  In subject (players ms) ->
  let candidates := potential_opponents (heap w) ms subject in
  ((exists c, eligible (heap w) ms subject c) ->
   forall c, In c candidates <-> eligible (heap w) ms subject c) /\
  (~ (exists c, eligible (heap w) ms subject c) ->
   forall c, In c candidates <-> In c (players ms) /\ c <> subject) /\
  (forall q w', find_match ms subject w = Ok q w' ->
     q <> subject /\ In q (players ms) /\ heap w' = heap w /\
     nth_error candidates (choice_index w (length candidates)) = Some q) /\
  (forall e w', find_match ms subject w = Raise e w' -> e = IndexError /\ w' = w) /\
  (forall c, In c candidates ->
     exists n, find_match ms subject (redraw w n) = Ok c (advance (redraw w n))) /\
  (NoDup (players ms) ->
     NoDup candidates /\ exists q, find_match ms subject w = Ok q (advance w)).
Proof.
  intros Hlen Hsub candidates.
  split; [|split; [|split; [|split; [|split]]]].
  - intros Hex c. unfold candidates.
    rewrite dbl_potential_in_band by exact Hex.
    apply dbl_band_opponents_spec.
  - intros Hnone c. unfold candidates.
    rewrite dbl_potential_fallback by exact Hnone.
    apply dbl_others_spec.
  - intros q w' Hrun.
    destruct (dbl_find_match_result ms subject q w w' Hrun) as (-> & Hnth & Hin & Hne).
    repeat split; assumption.
  - intros e w'. rewrite dbl_find_match_unfold.
    destruct (potential_opponents (heap w) ms subject) as [| c l].
    + intros [= <- <-]. now split.
    + discriminate.
  - intros c Hc.
    destruct (dbl_potential_others _ _ _ _ Hc) as [Hcin Hcne].
    destruct (In_nth_error _ _ Hc) as (i & Hi).
    assert (Hlt : (i < length candidates)%nat)
      by (apply nth_error_Some; congruence).
    exists (N.of_nat i).
    destruct (dbl_find_match_effect ms subject c (redraw w (N.of_nat i)) Hcin Hcne)
      as (q & Hrun & Hnth & _).
    simpl heap in Hnth. fold candidates in Hnth.
    assert (Hidx : choice_index (redraw w (N.of_nat i)) (length candidates) = i).
    { unfold choice_index, redraw. simpl tape.
      rewrite N.mod_small by lia. apply Nat2N.id. }
    rewrite Hidx, Hi in Hnth. injection Hnth as <-. exact Hrun.
  - intros Hnd. split; [now apply dbl_potential_NoDup|].
    destruct (another_member (players ms) subject Hlen Hnd) as (c0 & Hc0 & Hne0).
    destruct (dbl_find_match_effect ms subject c0 w Hc0 Hne0) as (q & Hrun & _).
    now exists q.
Qed.

(** With a subject rated 1401.0 and players rated 1681.2, 1120.8 and
    3000.0 the band ends are rounded products: the first two are in the
    band, the third is not. *)
Lemma find_match_candidates_witness :
  potential_opponents (heap band_world) band_matchmaker 0%nat = [1; 2]%nat /\
  eligible (heap band_world) band_matchmaker 0%nat 1%nat /\
  eligible (heap band_world) band_matchmaker 0%nat 2%nat /\
  ~ eligible (heap band_world) band_matchmaker 0%nat 3%nat.
Proof.
  assert (Hcand : potential_opponents (heap band_world) band_matchmaker 0%nat
                  = [1; 2]%nat) by reflexivity.
  split; [exact Hcand|].
  destruct (find_match_candidates band_matchmaker 0%nat band_world) as (Hband & _).
  - simpl. lia.
  - simpl. now left.
  - rewrite Hcand in Hband.
    assert (Hex : exists c, eligible (heap band_world) band_matchmaker 0%nat c).
    { exists 1%nat. apply dbl_band_opponents_spec.
      change (In 1%nat [1; 2]%nat). simpl. tauto. }
    specialize (Hband Hex).
    split; [apply Hband; simpl; tauto|].
    split; [apply Hband; simpl; tauto|].
    intros H3. apply Hband in H3. simpl in H3.
    destruct H3 as [H3 | [H3 | []]]; discriminate.
Defined.

(** ** simulate_match *)

Section MatchWithLibm.

Variable libm_pow10 : float -> float.

Lemma dbl_random_random_effect (w : World) :
  random_random w = Ok (unit_draw w) (advance w).
Proof. reflexivity. Qed.

(** Two updates in sequence on distinct players [a] then [b], from the
    world [w0] the draw leaves: the first may fail and leave everything as
    it was, the second may fail after the first has been recorded. *)
Lemma dbl_update_pair (a b : ref) (sa sb : float) (z : Z) (w0 : World) :
  a <> b ->
  match expected_score libm_pow10 (heap w0 a) (rating (heap w0 b)) with
  | inl e =>
      (ob <- deref b ;;
       update_rating libm_pow10 a (rating ob) sa default_k_factor ;;;
       oa <- deref a ;;
       update_rating libm_pow10 b (rating oa) sb default_k_factor ;;;
       ret z) w0 = Raise e w0
  | inr ea =>
      let da := 32 * (sa - ea) in
      match expected_score libm_pow10 (heap w0 b) (rating (heap w0 a) + da) with
      | inl e =>
          exists w',
            (ob <- deref b ;;
             update_rating libm_pow10 a (rating ob) sa default_k_factor ;;;
             oa <- deref a ;;
             update_rating libm_pow10 b (rating oa) sb default_k_factor ;;;
             ret z) w0 = Raise e w' /\
            heap w' a = played (heap w0 a) da /\
            (forall r, r <> a -> heap w' r = heap w0 r) /\
            next_ref w' = next_ref w0 /\ tape w' = tape w0 /\ cursor w' = cursor w0
      | inr eb =>
          exists w',
            (ob <- deref b ;;
             update_rating libm_pow10 a (rating ob) sa default_k_factor ;;;
             oa <- deref a ;;
             update_rating libm_pow10 b (rating oa) sb default_k_factor ;;;
             ret z) w0 = Ok z w' /\
            heap w' a = played (heap w0 a) da /\
            heap w' b = played (heap w0 b) (32 * (sb - eb)) /\
            (forall r, r <> a -> r <> b -> heap w' r = heap w0 r) /\
            next_ref w' = next_ref w0 /\ tape w' = tape w0 /\ cursor w' = cursor w0
      end
  end.
Proof.
  intros Hne.
  destruct (expected_score libm_pow10 (heap w0 a) (rating (heap w0 b)))
    as [e | ea] eqn:Ha.
  - unfold bind at 1. unfold deref at 1. unfold bind at 1.
    now rewrite (dbl_update_rating_raise libm_pow10 a _ sa default_k_factor e w0 Ha).
  - cbv zeta.
    destruct (dbl_update_rating_ok libm_pow10 a _ sa default_k_factor ea w0 Ha)
      as (w1 & Hrun1 & H1 & H1o & H1n & H1t & H1c).
    assert (Hb1 : heap w1 b = heap w0 b) by (apply H1o; congruence).
    assert (Hr1 : rating (heap w1 a) = rating (heap w0 a) + 32 * (sa - ea))
      by (rewrite H1; reflexivity).
    destruct (expected_score libm_pow10 (heap w0 b) (rating (heap w0 a) + 32 * (sa - ea)))
      as [e | eb] eqn:Hb.
    + exists w1. split.
      * unfold bind at 1. unfold deref at 1. unfold bind at 1. rewrite Hrun1.
        unfold bind at 1. unfold deref at 1. unfold bind at 1.
        rewrite (dbl_update_rating_raise libm_pow10 b _ sb default_k_factor e w1);
          [reflexivity|].
        now rewrite Hb1, Hr1.
      * repeat split; assumption.
    + assert (Hb' : expected_score libm_pow10 (heap w1 b) (rating (heap w1 a)) = inr eb)
        by now rewrite Hb1, Hr1.
      destruct (dbl_update_rating_ok libm_pow10 b _ sb default_k_factor eb w1 Hb')
        as (w2 & Hrun2 & H2 & H2o & H2n & H2t & H2c).
      exists w2. split.
      * unfold bind at 1. unfold deref at 1. unfold bind at 1. rewrite Hrun1.
        unfold bind at 1. unfold deref at 1. unfold bind at 1. rewrite Hrun2.
        reflexivity.
      * repeat split.
        -- rewrite H2o by exact Hne. exact H1.
        -- rewrite H2, Hb1. reflexivity.
        -- intros r Hra Hrb. rewrite H2o by exact Hrb. now apply H1o.
        -- congruence.
        -- congruence.
        -- congruence.
Qed.

(** One match between distinct players, with every way it can end. *)
Lemma dbl_simulate_match_cases (player1 player2 : ref) (w : World) :
  player1 <> player2 ->
  match expected_score libm_pow10 (heap w player1) (rating (heap w player2)) with
  | inl e => simulate_match libm_pow10 player1 player2 w = Raise e w
  | inr e1 =>
      let won := unit_draw w <? e1 in
      let d1 := 32 * ((if won then 1 else 0) - e1) in
      match expected_score libm_pow10 (heap w player2) (rating (heap w player1) + d1) with
      | inl e =>
          exists w',
            simulate_match libm_pow10 player1 player2 w = Raise e w' /\
            heap w' player1 = played (heap w player1) d1 /\
            (forall r, r <> player1 -> heap w' r = heap w r) /\
            next_ref w' = next_ref w /\ tape w' = tape w /\ cursor w' = S (cursor w)
      | inr e2 =>
          exists w',
            simulate_match libm_pow10 player1 player2 w
              = Ok (if won then 1%Z else 2%Z) w' /\
            heap w' player1 = played (heap w player1) d1 /\
            heap w' player2
              = played (heap w player2) (32 * ((if won then 0 else 1) - e2)) /\
            (forall r, r <> player1 -> r <> player2 -> heap w' r = heap w r) /\
            next_ref w' = next_ref w /\ tape w' = tape w /\ cursor w' = S (cursor w)
      end
  end.
Proof.
  intros Hne.
  destruct (expected_score libm_pow10 (heap w player1) (rating (heap w player2)))
    as [e | e1] eqn:He1.
  { unfold simulate_match, bind, deref, lift. now rewrite He1. }
  assert (Hstep :
    simulate_match libm_pow10 player1 player2 w =
    (if unit_draw w <? e1 then
       o2 <- deref player2 ;;
       update_rating libm_pow10 player1 (rating o2) 1 default_k_factor ;;;
       o1 <- deref player1 ;;
       update_rating libm_pow10 player2 (rating o1) 0 default_k_factor ;;;
       ret 1%Z
     else
       o2 <- deref player2 ;;
       update_rating libm_pow10 player1 (rating o2) 0 default_k_factor ;;;
       o1 <- deref player1 ;;
       update_rating libm_pow10 player2 (rating o1) 1 default_k_factor ;;;
       ret 2%Z) (advance w)).
  { unfold simulate_match, random_random.
    unfold bind at 1. unfold deref at 1.
    cbv beta iota. unfold bind at 1. unfold deref at 1.
    cbv beta iota. unfold bind at 1. rewrite He1. unfold lift.
    unfold bind at 1. unfold bind at 1. unfold draw. unfold ret at 1.
    reflexivity. }
  rewrite Hstep. clear Hstep.
  cbv zeta.
  destruct (unit_draw w <? e1).
  - pose proof (dbl_update_pair player1 player2 1 0 1%Z (advance w) Hne) as H.
    simpl heap in H. rewrite He1 in H. cbv zeta in H.
    destruct (expected_score libm_pow10 (heap w player2)
                (rating (heap w player1) + 32 * (1 - e1))) as [e | e2].
    + destruct H as (w' & Hrun & H1 & Ho & Hn & Ht & Hc).
      exists w'. repeat split; assumption.
    + destruct H as (w' & Hrun & H1 & H2 & Ho & Hn & Ht & Hc).
      exists w'. repeat split; assumption.
  - pose proof (dbl_update_pair player1 player2 0 1 2%Z (advance w) Hne) as H.
    simpl heap in H. rewrite He1 in H. cbv zeta in H.
    destruct (expected_score libm_pow10 (heap w player2)
                (rating (heap w player1) + 32 * (0 - e1))) as [e | e2].
    + destruct H as (w' & Hrun & H1 & Ho & Hn & Ht & Hc).
      exists w'. repeat split; assumption.
    + destruct H as (w' & Hrun & H1 & H2 & Ho & Hn & Ht & Hc).
      exists w'. repeat split; assumption.
Qed.

(** C9, amended: k_factor is a parameter of update_rating only, which
    returns k_factor * (actual_score - expected) for whatever k_factor it
    is given.  simulate_match takes no k_factor: in a match between
    distinct players that returns, player1's rating changes by
    32 * (score1 - expected1) and player2's by 32 * (score2 - expected2),
    each expected score being the one expected_score returns for that
    player; a match that does not return raises OverflowError or
    ZeroDivisionError out of expected_score. *)
Theorem simulate_match_k_factor_32 (player1 player2 : ref) (w : World) :
  player1 <> player2 ->
  let R1 := rating (heap w player1) in
  let R2 := rating (heap w player2) in
  match simulate_match libm_pow10 player1 player2 w with
  | Ok z w' =>
      exists e1 e2 o,
        (z = 1%Z \/ z = 2%Z) /\
        expected_score libm_pow10 (heap w player1) R2 = inr e1 /\
        (o = R1 \/ o = rating (heap w' player1)) /\
        expected_score libm_pow10 (heap w player2) o = inr e2 /\
        rating (heap w' player1) = R1 + 32 * ((if Z.eqb z 1 then 1 else 0) - e1) /\
        rating (heap w' player2) = R2 + 32 * ((if Z.eqb z 1 then 0 else 1) - e2)
  | Raise e _ => e = OverflowError \/ e = ZeroDivisionError
  end /\
  (forall self o s k w0 expected,
     expected_score libm_pow10 (heap w0 self) o = inr expected ->
     exists w1,
       update_rating libm_pow10 self o s k w0 = Ok (k * (s - expected)) w1 /\
       rating (heap w1 self) = rating (heap w0 self) + k * (s - expected)).
Proof.
  intros Hne R1 R2. split.
  - pose proof (dbl_simulate_match_cases player1 player2 w Hne) as H.
    fold R1 R2 in H.
    destruct (expected_score libm_pow10 (heap w player1) R2) as [e | e1] eqn:He1.
    + rewrite H. now apply dbl_expected_score_raises with libm_pow10 (heap w player1) R2.
    + cbv zeta in H.
      destruct (expected_score libm_pow10 (heap w player2)
                  (R1 + 32 * ((if unit_draw w <? e1 then 1 else 0) - e1)))
        as [e | e2] eqn:He2.
      * destruct H as (w' & -> & _).
        now apply dbl_expected_score_raises with libm_pow10 (heap w player2)
          (R1 + 32 * ((if unit_draw w <? e1 then 1 else 0) - e1)).
      * destruct H as (w' & -> & H1 & H2 & _).
        exists e1, e2, (rating (heap w' player1)).
        rewrite H1, H2. simpl rating. fold R1 R2.
        destruct (unit_draw w <? e1); simpl Z.eqb; cbv iota;
          repeat split; auto.
  - intros self o s k w0 expected He.
    destruct (dbl_update_rating_ok libm_pow10 self o s k expected w0 He)
      as (w1 & Hrun & Hself & _).
    exists w1. split; [exact Hrun|]. rewrite Hself. reflexivity.
Qed.

(** X19: when player1's update succeeds and the expected score for
    player2's update then overflows, simulate_match raises with the match
    half recorded: player1 has its new rating, one more history entry and
    one more match played, player2 and everybody else are untouched. *)
Theorem simulate_match_half_recorded (player1 player2 : ref) (w : World)
    (e1 : float) (e : exception) :
  player1 <> player2 ->
  expected_score libm_pow10 (heap w player1) (rating (heap w player2)) = inr e1 ->
  let d1 := 32 * ((if unit_draw w <? e1 then 1 else 0) - e1) in
  expected_score libm_pow10 (heap w player2) (rating (heap w player1) + d1) = inl e ->
  exists w',
    simulate_match libm_pow10 player1 player2 w = Raise e w' /\
    rating (heap w' player1) = rating (heap w player1) + d1 /\
    rating_history (heap w' player1)
      = rating_history (heap w player1) ++ [rating (heap w' player1)] /\
    matches_played (heap w' player1) = (matches_played (heap w player1) + 1)%Z /\
    (forall r, r <> player1 -> heap w' r = heap w r).
Proof.
  intros Hne He1 d1 He2.
  pose proof (dbl_simulate_match_cases player1 player2 w Hne) as H.
  rewrite He1 in H. cbv zeta in H. fold d1 in H. rewrite He2 in H.
  destruct H as (w' & Hrun & H1 & Ho & _).
  exists w'. split; [exact Hrun|]. rewrite H1. simpl.
  repeat split. exact Ho.
Qed.

End MatchWithLibm.

Lemma simulate_match_k_factor_32_witness :
  match simulate_match sampled_pow10 0%nat 1%nat (world_of [1500; 1500]) with
  | Ok z w' =>
      z = 1%Z /\ rating (heap w' 0%nat) = 1516 /\
      rating (heap w' 1%nat) = 0x1.732f1fa6878p+10
  | Raise _ _ => False
  end.
Proof.
  pose proof (simulate_match_k_factor_32 sampled_pow10 0%nat 1%nat
                (world_of [1500; 1500])) as H.
  destruct H as [H _]; [discriminate|].
  destruct (simulate_match sampled_pow10 0%nat 1%nat (world_of [1500; 1500]))
    as [z w' | e w'] eqn:Hrun.
  - clear H. vm_compute in Hrun. injection Hrun as <- <-.
    repeat split; reflexivity.
  - vm_compute in Hrun. discriminate.
Defined.

Lemma simulate_match_half_recorded_witness :
  exists w',
    simulate_match sampled_pow10 0%nat 1%nat (world_of [200000; 0])
      = Raise OverflowError w' /\
    matches_played (heap w' 0%nat) = 1%Z /\
    matches_played (heap w' 1%nat) = 0%Z.
Proof.
  destruct (simulate_match_half_recorded sampled_pow10 0%nat 1%nat
              (world_of [200000; 0]) 1 OverflowError)
    as (w' & Hrun & _ & _ & Hm & Ho).
  - discriminate.
  - reflexivity.
  - reflexivity.
  - exists w'. split; [exact Hrun|]. split.
    + rewrite Hm. reflexivity.
    + rewrite Ho by discriminate. reflexivity.
Defined.

(** ** The complement of the expected score *)



Section ComplementWithLibm.

Variable libm_pow10 : float -> float.




End ComplementWithLibm.



End DoubleFacts.
